(** * sim5disk-nt: the Novikov-Thorne thin disk of the sim5 library

    A shallow embedding of [src/src/sim5disk-nt.c] and the properties of its
    radial-structure routines.

    The C unit computes on [double] and keeps its configuration in [float]
    statics.  The embedding is written once, over an interface [CArith] of
    the two C floating types and the operations the unit applies to them,
    and is read at two instances:

    - [RealArith]: both types are the real numbers, conversions are the
      identity and the [libm] functions are their mathematical counterparts.
      This is the idealised semantics in which the formulas of the disk
      model are stated and proved (rounding, infinities and NaN are not
      represented).
    - [FloatArith]: [double] is IEEE-754 binary64 ([PrimFloat]), [float] is
      binary32 and a store into a [float] object rounds to nearest-even.
      The transcendental [libm] functions are parameters of this instance.

    The routines of other units of the library that the file calls
    ([integrate_simpson], [rtbis]) and the constants of its headers are the
    fields of the interface [Sim5Lib]. *)

From Stdlib Require Import ZArith Reals Lra Lia Psatz List Bool.
From Stdlib Require PrimFloat SpecFloat FloatOps FloatAxioms.
From Stdlib Require Import FunctionalExtensionality.

Set Implicit Arguments.

(** ** The C arithmetic the unit relies on *)

Class CArith : Type := {
  double : Type;                         (* C [double] *)
  single : Type;                         (* C [float] *)
  d_lit : Z -> double;                   (* an integer-valued constant *)
  d_add : double -> double -> double;
  d_sub : double -> double -> double;
  d_mul : double -> double -> double;
  d_div : double -> double -> double;
  d_neg : double -> double;
  d_leb : double -> double -> bool;      (* [x <= y] *)
  d_ltb : double -> double -> bool;      (* [x < y]  *)
  c_sqrt : double -> double;             (* math.h *)
  c_exp : double -> double;
  c_log : double -> double;
  c_cos : double -> double;
  c_acos : double -> double;
  c_pow : double -> double -> double;
  c_fmax : double -> double -> double;
  M_PI : double;
  to_single : double -> single;          (* conversion on a store to [float] *)
  to_double : single -> double           (* promotion of a [float] operand  *)
}.

Arguments d_lit {_} z%_Z.

Declare Scope C_scope.
Delimit Scope C_scope with C.
Infix "+" := d_add : C_scope.
Infix "-" := d_sub : C_scope.
Infix "*" := d_mul : C_scope.
Infix "/" := d_div : C_scope.
Notation "- x" := (d_neg x) : C_scope.
Infix "<=?" := d_leb : C_scope.
Infix "<?" := d_ltb : C_scope.

Section CMath.
Context {num : CArith}.
Local Open Scope C_scope.

(** [x >= y] of C is [y <= x]; both are false on an unordered pair. *)
Definition d_geb (x y : double) : bool := y <=? x.

(** A decimal constant [m]e[e], such as [1e-3] or [9.1721376255e+28]:
    the integer [m * 10^e] when [e] is not negative, the quotient of [m]
    by [10^-e] otherwise. *)
Definition dec (m e : Z) : double :=
  match e with
  | Z0 => d_lit m
  | Zpos p => d_lit (m * 10 ^ Zpos p)
  | Zneg p => d_lit m / d_lit (10 ^ Zpos p)
  end.

(** The macros [sqr], [sqr3] and [sqr4] of [sim5math.h]. *)
Definition sqr (x : double) : double := x * x.
Definition sqr3 (x : double) : double := x * x * x.
Definition sqr4 (x : double) : double := x * x * x * x.
End CMath.

Arguments dec {_} m%_Z e%_Z.

(** ** The static variables of the unit *)

Record disk_nt {num : CArith} : Type := mk_disk_nt {
  disk_nt_bh_mass : single;
  disk_nt_bh_spin : single;
  disk_nt_disk_mdot : single;
  disk_nt_disk_rms : single;
  disk_nt_disk_alpha : single;
  disk_nt_options : Z
}.

Arguments mk_disk_nt {num}.

(** ** Routines that receive a function pointer

    [rtbis] gets a pointer to the nested function [fce], which writes the
    static [disk_nt_disk_mdot].  All a callee can do with the pointer is to
    call it, so its behaviour is a tree: it either returns, or evaluates the
    function at a point and continues with the value it got. *)

Inductive oracle (D A : Type) : Type :=
| Done (a : A)
| Ask (x : D) (k : D -> oracle D A).

Arguments Done {D A} a.
Arguments Ask {D A} x k.

(** The units and headers [sim5disk-nt.c] is compiled against. *)
Class Sim5Lib {num : CArith} : Type := {
  grav_radius : double;                  (* sim5const.h *)
  L_Edd : double;
  Mdot_Edd : double;
  DISK_NT_OPTION_LUMINOSITY : Z;         (* sim5disk-nt.h *)
  integrate_simpson :                    (* sim5integration.c *)
    (double -> double) -> double -> double -> double -> double;
  rtbis :                                (* sim5roots.c: status and [*result] *)
    double -> double -> double -> oracle double (Z * double)
}.

(** ** State passing *)

Section StateMonad.
Context {num : CArith}.

Definition stateM (A : Type) : Type := disk_nt -> A * disk_nt.

Definition ret {A} (a : A) : stateM A := fun st => (a, st).

Definition bind {A B} (c : stateM A) (k : A -> stateM B) : stateM B :=
  fun st => let (a, st') := c st in k a st'.

Definition read {A} (f : disk_nt -> A) : stateM A := fun st => (f st, st).

Definition set_bh_mass (v : single) : stateM unit := fun st =>
  (tt, mk_disk_nt v (disk_nt_bh_spin st) (disk_nt_disk_mdot st)
         (disk_nt_disk_rms st) (disk_nt_disk_alpha st) (disk_nt_options st)).

Definition set_bh_spin (v : single) : stateM unit := fun st =>
  (tt, mk_disk_nt (disk_nt_bh_mass st) v (disk_nt_disk_mdot st)
         (disk_nt_disk_rms st) (disk_nt_disk_alpha st) (disk_nt_options st)).

Definition set_disk_mdot (v : single) : stateM unit := fun st =>
  (tt, mk_disk_nt (disk_nt_bh_mass st) (disk_nt_bh_spin st) v
         (disk_nt_disk_rms st) (disk_nt_disk_alpha st) (disk_nt_options st)).

Definition set_disk_rms (v : single) : stateM unit := fun st =>
  (tt, mk_disk_nt (disk_nt_bh_mass st) (disk_nt_bh_spin st)
         (disk_nt_disk_mdot st) v (disk_nt_disk_alpha st) (disk_nt_options st)).

Definition set_disk_alpha (v : single) : stateM unit := fun st =>
  (tt, mk_disk_nt (disk_nt_bh_mass st) (disk_nt_bh_spin st)
         (disk_nt_disk_mdot st) (disk_nt_disk_rms st) v (disk_nt_options st)).

Definition set_options (v : Z) : stateM unit := fun st =>
  (tt, mk_disk_nt (disk_nt_bh_mass st) (disk_nt_bh_spin st)
         (disk_nt_disk_mdot st) (disk_nt_disk_rms st) (disk_nt_disk_alpha st) v).

(** Running a callee on a callback that works on the statics. *)
Fixpoint run_oracle {A} (t : oracle double A) (f : double -> stateM double)
  : stateM A :=
  match t with
  | Done a => ret a
  | Ask x k => bind (f x) (fun y => run_oracle (k y) f)
  end.
End StateMonad.

Notation "x <- c1 ;; c2" := (bind c1 (fun x => c2))
  (at level 61, c1 at next level, right associativity).
Notation "c1 ;; c2" := (bind c1 (fun _ => c2))
  (at level 61, right associativity).

(** ** The routines of sim5disk-nt.c *)

Section DiskNT.
Context {num : CArith} {lib : Sim5Lib}.
Local Open Scope C_scope.

(** The initial values of the statics. *)
Definition disk_nt_initial : disk_nt :=
  mk_disk_nt (to_single (d_lit 10)) (to_single (d_lit 0))
    (to_single (dec 1 (-1))) (to_single (d_lit 6))
    (to_single (dec 1 (-1))) 0.

Definition disk_nt_r_min (st : disk_nt) : double :=
  let a := to_double (disk_nt_bh_spin st) in
  let sga := if d_geb a (d_lit 0) then d_lit 1 else d_lit (-1) in
  let z1 := d_lit 1 + c_pow (d_lit 1 - a * a) (d_lit 1 / d_lit 3)
              * (c_pow (d_lit 1 + a) (d_lit 1 / d_lit 3)
                 + c_pow (d_lit 1 - a) (d_lit 1 / d_lit 3)) in
  let z2 := c_sqrt (d_lit 3 * a * a + z1 * z1) in
  let r0 := d_lit 3 + z2
            - sga * c_sqrt ((d_lit 3 - z1) * (d_lit 3 + z1 + d_lit 2 * z2)) in
  r0 + dec 1 (-3).

Definition disk_nt_flux (st : disk_nt) (r : double) : double :=
  if r <=? to_double (disk_nt_disk_rms st) then d_lit 0 else
  let a := to_double (disk_nt_bh_spin st) in
  let x := c_sqrt r in
  let x0 := c_sqrt (to_double (disk_nt_disk_rms st)) in
  let x1 := d_lit 2 * c_cos (d_lit 1 / d_lit 3 * c_acos a - M_PI / d_lit 3) in
  let x2 := d_lit 2 * c_cos (d_lit 1 / d_lit 3 * c_acos a + M_PI / d_lit 3) in
  let x3 := d_lit (-2) * c_cos (d_lit 1 / d_lit 3 * c_acos a) in
  let f0 := x - x0 - dec 15 (-1) * a * c_log (x / x0) in
  let f1 := d_lit 3 * sqr (x1 - a) / (x1 * (x1 - x2) * (x1 - x3))
            * c_log ((x - x1) / (x0 - x1)) in
  let f2 := d_lit 3 * sqr (x2 - a) / (x2 * (x2 - x1) * (x2 - x3))
            * c_log ((x - x2) / (x0 - x2)) in
  let f3 := d_lit 3 * sqr (x3 - a) / (x3 * (x3 - x1) * (x3 - x2))
            * c_log ((x - x3) / (x0 - x3)) in
  let F := d_lit 1 / (d_lit 4 * M_PI * r)
           * dec 15 (-1) / (x * x * (x * x * x - d_lit 3 * x + d_lit 2 * a))
           * (f0 - f1 - f2 - f3) in
  dec 91721376255 18 * F * to_double (disk_nt_disk_mdot st)
    / to_double (disk_nt_bh_mass st).

(** The nested function [func_luminosity] of [disk_nt_lumi]. *)
Definition func_luminosity (st : disk_nt) (log_r : double) : double :=
  let spin := to_double (disk_nt_bh_spin st) in
  let r := c_exp log_r in
  let gtt := d_lit (-1) + d_lit 2 / r in
  let gtf := d_lit (-2) * spin / r in
  let gff := sqr r + sqr spin + d_lit 2 * sqr spin / r in
  let Omega := d_lit 1 / (spin + c_pow r (dec 15 (-1))) in
  let U_t := c_sqrt (d_lit (-1) / (gtt + d_lit 2 * Omega * gtf + sqr Omega * gff))
             * (gtt + Omega * gtf) in
  let F := disk_nt_flux st r in
  d_lit 2 * M_PI * r * d_lit 2 * (- U_t) * F * r.

Definition disk_nt_lumi (st : disk_nt) : double :=
  let disk_rmax := to_single (dec 1 5) in
  let L := integrate_simpson (func_luminosity st)
             (c_log (to_double (disk_nt_disk_rms st)))
             (c_log (to_double disk_rmax)) (dec 1 (-5)) in
  let L := L * sqr (to_double (disk_nt_bh_mass st) * grav_radius) in
  L / (L_Edd * to_double (disk_nt_bh_mass st)).

Definition disk_nt_mdot (st : disk_nt) : double :=
  to_double (disk_nt_disk_mdot st).


Definition disk_nt_ell (st : disk_nt) (r : double) : double :=
  let a := to_double (disk_nt_bh_spin st) in
  let r := c_fmax (to_double (disk_nt_disk_rms st)) r in
  (r * r - d_lit 2 * a * c_sqrt r + a * a)
  / (c_sqrt r * r - d_lit 2 * c_sqrt r + a).

Definition disk_nt_vr (st : disk_nt) (r : double) : double := d_lit 0.
Definition disk_nt_h (st : disk_nt) (r : double) : double := d_lit 0.
Definition disk_nt_dhdr (st : disk_nt) (r : double) : double := d_lit 0.

(** The nested function [fce] of [disk_nt_find_mdot_for_luminosity]. *)
Definition fce (L0 : double) (xmdot : double) : stateM double :=
  set_disk_mdot (to_single xmdot) ;;
  L <- read disk_nt_lumi ;;
  ret (L0 - L).

Definition disk_nt_find_mdot_for_luminosity (L0 : double) : stateM double :=
  out <- run_oracle (rtbis (d_lit 0) (d_lit 100) (dec 1 (-6))) (fce L0) ;;
  let (res, L) := (out : Z * double) in
  ret (if Z.eqb res 0 then d_lit 0 else L).

Definition disk_nt_setup (M a mdot_or_L alpha : double) (options : Z)
  : stateM Z :=
  set_bh_mass (to_single M) ;;
  set_bh_spin (to_single a) ;;
  rmin <- read disk_nt_r_min ;;
  set_disk_rms (to_single rmin) ;;
  set_disk_alpha (to_single alpha) ;;
  set_options options ;;
  opts <- read disk_nt_options ;;
  (if Z.eqb (Z.land opts DISK_NT_OPTION_LUMINOSITY) 0
   then set_disk_mdot (to_single mdot_or_L)
   else (m <- disk_nt_find_mdot_for_luminosity mdot_or_L ;;
         set_disk_mdot (to_single m))) ;;
  ret 0%Z.
End DiskNT.


(** ** The idealised instance: real arithmetic *)

Definition Rleb (x y : R) : bool := if Rle_dec x y then true else false.
Definition Rltb (x y : R) : bool := if Rlt_dec x y then true else false.

(** [pow] of math.h on the reals.  For a positive base it is
    [exp (y * log x)]; at base [0] the C function returns [0] for a positive
    exponent.  A negative base, or base [0] with an exponent that is not
    positive, has no finite real value in general (C answers with NaN, an
    infinity or a signed integer power); the routines below do not reach
    these arguments on a well-formed configuration and the model gives [0]
    there. *)
Definition Rpow_c (x y : R) : R :=
  if Rlt_dec 0 x then Rpower x y else 0%R.

#[export] Instance RealArith : CArith := {|
  double := R;
  single := R;
  d_lit := IZR;
  d_add := Rplus;
  d_sub := Rminus;
  d_mul := Rmult;
  d_div := Rdiv;
  d_neg := Ropp;
  d_leb := Rleb;
  d_ltb := Rltb;
  c_sqrt := sqrt;
  c_exp := exp;
  c_log := ln;
  c_cos := cos;
  c_acos := acos;
  c_pow := Rpow_c;
  c_fmax := Rmax;
  M_PI := PI;
  to_single := fun x => x;
  to_double := fun x => x
|}.


(** ** The machine instance: binary64 and binary32

    [double] is [PrimFloat.float].  A [float] object holds a binary32 number,
    kept as a [spec_float] in the binary32 format (24 bits of precision,
    exponents below 128); a store converts by rounding to nearest, ties to
    even, and a read promotes exactly.  [exp], [log], [cos], [acos] and [pow]
    are taken from the platform's libm. *)

Definition binary32_of_double (x : PrimFloat.float) : SpecFloat.spec_float :=
  match FloatOps.Prim2SF x with
  | SpecFloat.S754_finite s m e => SpecFloat.binary_round 24 128 s m e
  | sf => sf
  end.

Definition double_of_binary32 (f : SpecFloat.spec_float) : PrimFloat.float :=
  FloatOps.SF2Prim
    match f with
    | SpecFloat.S754_finite s m e => SpecFloat.binary_round 53 1024 s m e
    | sf => sf
    end.

Definition double_of_Z (z : Z) : PrimFloat.float :=
  FloatOps.SF2Prim (SpecFloat.binary_normalize 53 1024 z 0 false).

(** [fmax] of math.h: a NaN argument is treated as missing data. *)
Definition float_fmax (x y : PrimFloat.float) : PrimFloat.float :=
  if PrimFloat.is_nan x then y
  else if PrimFloat.is_nan y then x
  else if PrimFloat.ltb x y then y else x.

(** [M_PI] of math.h, 0x1.921fb54442d18p+1. *)
Definition float_M_PI : PrimFloat.float :=
  FloatOps.SF2Prim (SpecFloat.S754_finite false 7074237752028440 (-51)).

Definition FloatArith
    (libm_exp libm_log libm_cos libm_acos : PrimFloat.float -> PrimFloat.float)
    (libm_pow : PrimFloat.float -> PrimFloat.float -> PrimFloat.float)
  : CArith := {|
  double := PrimFloat.float;
  single := SpecFloat.spec_float;
  d_lit := double_of_Z;
  d_add := PrimFloat.add;
  d_sub := PrimFloat.sub;
  d_mul := PrimFloat.mul;
  d_div := PrimFloat.div;
  d_neg := PrimFloat.opp;
  d_leb := PrimFloat.leb;
  d_ltb := PrimFloat.ltb;
  c_sqrt := PrimFloat.sqrt;
  c_exp := libm_exp;
  c_log := libm_log;
  c_cos := libm_cos;
  c_acos := libm_acos;
  c_pow := libm_pow;
  c_fmax := float_fmax;
  M_PI := float_M_PI;
  to_single := binary32_of_double;
  to_double := double_of_binary32
|}.

(** A double that a [float] object can hold without change. *)
Definition binary32_representable (x : PrimFloat.float) : Prop :=
  exists f : SpecFloat.spec_float,
    SpecFloat.valid_binary 24 128 f = true /\ double_of_binary32 f = x.

(** ** Pure readings of the callback protocol (any arithmetic) *)

Section OracleEval.
Context {D A : Type}.

(** The value a callee returns when its function argument is [h]. *)
Fixpoint oracle_value (t : oracle D A) (h : D -> D) : A :=
  match t with
  | Done a => a
  | Ask x k => oracle_value (k (h x)) h
  end.

(** The points at which it evaluates [h], in order. *)
Fixpoint oracle_trials (t : oracle D A) (h : D -> D) : list D :=
  match t with
  | Done _ => nil
  | Ask x k => x :: oracle_trials (k (h x)) h
  end.
End OracleEval.

(** The statics with [disk_nt_disk_mdot] replaced. *)
Definition with_mdot {num : CArith} (st : disk_nt) (v : single) : disk_nt :=
  mk_disk_nt (disk_nt_bh_mass st) (disk_nt_bh_spin st) v
    (disk_nt_disk_rms st) (disk_nt_disk_alpha st) (disk_nt_options st).

(** The residual that [fce] computes for a trial accretion rate. *)
Definition residual {num : CArith} {lib : Sim5Lib}
    (st : disk_nt) (L0 : double) (xmdot : double) : double :=
  d_sub L0 (disk_nt_lumi (with_mdot st (to_single xmdot))).

(** The statics after the trials [l]: [disk_nt_disk_mdot] holds the last of
    them. *)
Definition after_trials {num : CArith} (st : disk_nt) (l : list double)
  : disk_nt :=
  match l with
  | nil => st
  | x :: l' => with_mdot st (to_single (last l' x))
  end.


(** ** The formulas of the specification, over the reals

    These definitions follow the wording of the specification; the theorems
    compare them with the routines above at the instance [RealArith]. *)

Section SpecFormulas.
Local Open Scope R_scope.

(** The closed-form roots of [x^3 - 3 x + 2 a]. *)
Definition PT_x1 (a : R) : R := 2 * cos (1 / 3 * acos a - PI / 3).
Definition PT_x2 (a : R) : R := 2 * cos (1 / 3 * acos a + PI / 3).
Definition PT_x3 (a : R) : R := - 2 * cos (1 / 3 * acos a).

Definition PT_cubic (a x : R) : R := x ^ 3 - 3 * x + 2 * a.

Definition PT_f0 (a x0 x : R) : R := x - x0 - 1.5 * a * ln (x / x0).

Definition PT_fi (a xi xj xk x0 x : R) : R :=
  3 * (xi - a) ^ 2 / (xi * (xi - xj) * (xi - xk)) * ln ((x - xi) / (x0 - xi)).

(** The bracket [f0 - f1 - f2 - f3] of Page and Thorne's equation (15n). *)
Definition PT_bracket (a x0 x : R) : R :=
  let x1 := PT_x1 a in
  let x2 := PT_x2 a in
  let x3 := PT_x3 a in
  PT_f0 a x0 x - PT_fi a x1 x2 x3 x0 x - PT_fi a x2 x3 x1 x0 x
  - PT_fi a x3 x1 x2 x0 x.

Definition PT_Fhat (a r_ms r : R) : R :=
  let x := sqrt r in
  let x0 := sqrt r_ms in
  (1 / (4 * PI * r)) * (1.5 / (x ^ 2 * PT_cubic a x)) * PT_bracket a x0 x.

(** The marginally stable orbit of Bardeen, Press and Teukolsky. *)
Definition sgn (a : R) : R :=
  if Rlt_dec 0 a then 1 else if Rlt_dec a 0 then -1 else 0.

Definition cube_root (x : R) : R := Rpower x (1 / 3).

Definition isco_Z1 (a : R) : R :=
  1 + cube_root (1 - a ^ 2) * (cube_root (1 + a) + cube_root (1 - a)).

Definition isco_Z2 (a : R) : R := sqrt (3 * a ^ 2 + isco_Z1 a ^ 2).

Definition r_isco (a : R) : R :=
  3 + isco_Z2 a
  - sgn a * sqrt ((3 - isco_Z1 a) * (3 + isco_Z1 a + 2 * isco_Z2 a)).

(** The specific angular momentum of a circular equatorial geodesic. *)
Definition kepler_ell (a r : R) : R :=
  (r ^ 2 - 2 * a * sqrt r + a ^ 2) / (Rpower r (3 / 2) - 2 * sqrt r + a).

(** The equatorial Kerr metric and the orbital four-velocity. *)
Definition kerr_g_tt (r : R) : R := -1 + 2 / r.
Definition kerr_g_tphi (a r : R) : R := - 2 * a / r.
Definition kerr_g_phiphi (a r : R) : R := r ^ 2 + a ^ 2 + 2 * a ^ 2 / r.
Definition kerr_Omega (a r : R) : R := 1 / (a + Rpower r (3 / 2)).

Definition kerr_U_t (a r : R) : R :=
  let Om := kerr_Omega a r in
  sqrt (-1 / (kerr_g_tt r + 2 * Om * kerr_g_tphi a r
              + Om ^ 2 * kerr_g_phiphi a r))
  * (kerr_g_tt r + Om * kerr_g_tphi a r).

(** The emitted element [dL / d(log r)] for a flux profile [flux]. *)
Definition lumi_element (a : R) (flux : R -> R) (log_r : R) : R :=
  let r := exp log_r in
  2 * PI * r * 2 * (- kerr_U_t a r) * flux r * r.
End SpecFormulas.

(** ** Reference collaborators over the reals *)

Section ReferenceLib.
Local Open Scope R_scope.

Definition simpson_rule (f : R -> R) (a b : R) : R :=
  (b - a) / 6 * (f a + 4 * f ((a + b) / 2) + f b).

(** Modelled from the spec: the adaptive Simpson integrator of
    [sim5integration.c], which is not among the sources.  Section 4.2:
    recursive subdivision that compares [S(a,b)] with [S(a,m) + S(m,b)] and
    accepts when the difference is below [15 * eps] times the length of the
    subinterval, not before a minimum depth.  The specification gives neither
    the minimum nor the maximum depth; they are the parameters [dmin] and
    [fuel]. *)
Fixpoint simpson_adapt (dmin fuel level : nat) (f : R -> R)
    (a b eps whole : R) : R :=
  let m := (a + b) / 2 in
  let left := simpson_rule f a m in
  let right := simpson_rule f m b in
  match fuel with
  | O => left + right
  | S fuel' =>
      if (dmin <=? level)%nat
         && Rltb (Rabs (left + right - whole)) (15 * eps * (b - a))
      then left + right
      else simpson_adapt dmin fuel' (S level) f a m eps left
           + simpson_adapt dmin fuel' (S level) f m b eps right
  end.

Definition spec_integrate (dmin fuel : nat) (f : R -> R) (a b eps : R) : R :=
  simpson_adapt dmin fuel 0 f a b eps (simpson_rule f a b).

(** Modelled from the spec: the bisection of [sim5roots.c], which is not
    among the sources.  Section 4.3: requires [f x_lo * f x_hi < 0], halves
    the interval until its width is below the tolerance, and reports failure
    when the sign condition does not hold at entry or the iterations are used
    up.  The end points are evaluated in the order [x_lo], [x_hi]; the number
    of iterations is the parameter [fuel]. *)
Fixpoint bisect_loop (fuel : nat) (lo hi tol flo : R) : oracle R (Z * R) :=
  if Rltb (hi - lo) tol then Done (1%Z, (lo + hi) / 2)
  else
    match fuel with
    | O => Done (0%Z, 0)
    | S fuel' =>
        let mid := (lo + hi) / 2 in
        Ask mid (fun fmid =>
          if Rltb (flo * fmid) 0 then bisect_loop fuel' lo mid tol flo
          else bisect_loop fuel' mid hi tol fmid)
    end.

Definition spec_bisect (fuel : nat) (lo hi tol : R) : oracle R (Z * R) :=
  Ask lo (fun flo =>
  Ask hi (fun fhi =>
    if Rltb (flo * fhi) 0 then bisect_loop fuel lo hi tol flo
    else Done (0%Z, 0))).

(** A complete set of collaborators: the integrator and the bisection as
    modelled above, the constants of [sim5const.h] in cgs units (gravitational
    radius of the Sun, Eddington luminosity and accretion rate per solar
    mass) and the first option bit. *)
Definition reference_lib : @Sim5Lib RealArith := {|
  grav_radius := 1.476716e5;
  L_Edd := 1.257142540e38;
  Mdot_Edd := 2.225475942e18;
  DISK_NT_OPTION_LUMINOSITY := 1;
  integrate_simpson := spec_integrate 2 20;
  rtbis := spec_bisect 64
|}.

End ReferenceLib.


(** ** Auxiliary quantities of the proofs *)

Section ProofQuantities.
Local Open Scope R_scope.


(** The sign as [disk_nt_r_min] selects it: [+1] at [a = 0]. *)
Definition isco_s (a : R) : R := if Rle_dec 0 a then 1 else -1.

Definition isco_r0 (a : R) : R :=
  3 + isco_Z2 a
  - isco_s a * sqrt ((3 - isco_Z1 a) * (3 + isco_Z1 a + 2 * isco_Z2 a)).





End ProofQuantities.


(** ** Readings of [disk_nt_setup] and of the inverse *)

Section SetupReadings.
Context {num : CArith} {lib : Sim5Lib}.

(** The statics after the first six statements of [disk_nt_setup]: all but
    [disk_nt_disk_mdot] are assigned, the inner edge from the new spin. *)
Definition setup_stores (M a alpha : double) (options : Z) (st : disk_nt)
  : disk_nt :=
  let st1 := mk_disk_nt (to_single M) (to_single a) (disk_nt_disk_mdot st)
               (disk_nt_disk_rms st) (disk_nt_disk_alpha st)
               (disk_nt_options st) in
  mk_disk_nt (to_single M) (to_single a) (disk_nt_disk_mdot st)
    (to_single (disk_nt_r_min st1)) (to_single alpha) options.

(** The call of [rtbis] in [disk_nt_find_mdot_for_luminosity]. *)
Definition inverse_search : oracle double (Z * double) :=
  rtbis (d_lit 0) (d_lit 100) (dec 1 (-6)).


End SetupReadings.


(** Scenario S1 of the specification: M = 10, a = 0, mdot = 0.1,
    alpha = 0.1, no options, on the reference collaborators. *)
Definition scenario_S1 : @disk_nt RealArith :=
  snd (@disk_nt_setup RealArith reference_lib 10%R 0%R 0.1%R 0.1%R 0
         (@disk_nt_initial RealArith)).



(** * Properties *)

Import ListNotations.
Local Open Scope R_scope.

(** ** Tactics for the real instance *)

Ltac real_arith :=
  cbn beta iota zeta delta
    [d_leb d_ltb d_geb d_lit d_add d_sub d_mul d_div d_neg c_sqrt c_exp c_log
     c_cos c_acos c_pow c_fmax M_PI to_double to_single RealArith sqr sqr3
     sqr4 dec double single].

Ltac norm_lits :=
  repeat match goal with
  | |- context [IZR ?z] =>
      lazymatch z with
      | Z0 => fail | Zpos _ => fail | Zneg _ => fail
      | _ => let z' := eval vm_compute in z in change z with z'
      end
  end.

(** ** The callback protocol *)

Section Generic.
Context {num : CArith} {lib : Sim5Lib}.

Lemma fce_unfold (L0 x : double) (st : disk_nt) :
  fce L0 x st = (residual st L0 x, with_mdot st (to_single x)).
Proof. reflexivity. Qed.

Lemma last_default_irrelevant {A} (l : list A) (x y : A) :
  l <> nil -> last l x = last l y.
Proof.
  induction l as [|z l IH]; [congruence|]. intros _.
  destruct l as [|w l]; [reflexivity|].
  change (last (w :: l) x = last (w :: l) y). apply IH. discriminate.
Qed.

Lemma last_cons_default {A} (l : list A) (x y : A) :
  last (x :: l) y = last l x.
Proof.
  destruct l as [|z l]; [reflexivity|].
  change (last (z :: l) y = last (z :: l) x).
  apply last_default_irrelevant. discriminate.
Qed.

Lemma after_trials_cons (st : disk_nt) (x : double) (l : list double) :
  after_trials (with_mdot st (to_single x)) l = after_trials st (x :: l).
Proof.
  destruct l as [|y l]; [reflexivity|].
  unfold after_trials. rewrite last_cons_default. reflexivity.
Qed.

Lemma run_oracle_fce {A} (t : oracle double A) (L0 : double) (st : disk_nt) :
  run_oracle t (fce L0) st
  = (oracle_value t (residual st L0),
     after_trials st (oracle_trials t (residual st L0))).
Proof.
  revert st. induction t as [a|x k IH]; intros st; [reflexivity|].
  cbn [run_oracle oracle_value oracle_trials].
  unfold bind at 1. rewrite fce_unfold.
  rewrite IH. change (residual (with_mdot st (to_single x)) L0) with (residual st L0).
  rewrite after_trials_cons. reflexivity.
Qed.

End Generic.

(** ** Comparisons and constants over the reals *)

Lemma lit_three_halves : 1.5 = 15 / 10.
Proof. lra. Qed.
Lemma Rleb_false (x y : R) : y < x -> Rleb x y = false.
Proof. intros H. unfold Rleb. destruct (Rle_dec x y); [lra|reflexivity]. Qed.

Lemma lit_flux_unit : 9.1721376255e28 = 91721376255000000000000000000.
Proof. lra. Qed.


(** ** The roots of the cubic *)

Lemma cos_triple (x : R) : cos (3 * x) = 4 * cos x ^ 3 - 3 * cos x.
Proof.
  replace (3 * x) with (2 * x + x) by ring.
  rewrite cos_plus, cos_2a_cos, sin_2a.
  pose proof (sin2_cos2 x) as H. unfold Rsqr in H.
  replace (2 * sin x * cos x * sin x) with (2 * cos x * (sin x * sin x)) by ring.
  replace (sin x * sin x) with (1 - cos x * cos x) by lra. ring.
Qed.

Lemma PT_x3_root (a : R) : -1 <= a <= 1 -> PT_cubic a (PT_x3 a) = 0.
Proof.
  intros Ha. unfold PT_cubic, PT_x3.
  pose proof (cos_triple (1 / 3 * acos a)) as H.
  replace (3 * (1 / 3 * acos a)) with (acos a) in H by field.
  rewrite cos_acos in H by exact Ha. nra.
Qed.

Lemma PT_x1_root (a : R) : -1 <= a <= 1 -> PT_cubic a (PT_x1 a) = 0.
Proof.
  intros Ha. unfold PT_cubic, PT_x1.
  pose proof (cos_triple (1 / 3 * acos a - PI / 3)) as H.
  replace (3 * (1 / 3 * acos a - PI / 3)) with (acos a - PI) in H by field.
  rewrite cos_minus, cos_PI, sin_PI, cos_acos in H by exact Ha. nra.
Qed.

Lemma PT_x2_root (a : R) : -1 <= a <= 1 -> PT_cubic a (PT_x2 a) = 0.
Proof.
  intros Ha. unfold PT_cubic, PT_x2.
  pose proof (cos_triple (1 / 3 * acos a + PI / 3)) as H.
  replace (3 * (1 / 3 * acos a + PI / 3)) with (acos a + PI) in H by field.
  rewrite cos_plus, cos_PI, sin_PI, cos_acos in H by exact Ha. nra.
Qed.






(** Location of the roots *)
Lemma third_acos_bounds (a : R) :
  -1 < a < 1 -> 0 < 1 / 3 * acos a < PI / 3.
Proof. intros Ha. pose proof (acos_bound_lt a Ha). lra. Qed.



Lemma PT_x1_bounds (a : R) : -1 < a < 1 -> 1 < PT_x1 a < 2.
Proof.
  intros Ha. pose proof (third_acos_bounds Ha) as [H0 H1]. pose proof PI_RGT_0.
  unfold PT_x1. rewrite <- cos_neg.
  assert (cos (PI / 3) < cos (- (1 / 3 * acos a - PI / 3))) by (apply cos_decreasing_1; lra).
  assert (cos (- (1 / 3 * acos a - PI / 3)) < cos 0) by (apply cos_decreasing_1; lra).
  rewrite cos_PI3 in *. rewrite cos_0 in *. lra.
Qed.















Section Isco.
Variable a : R.
Hypothesis Ha : -1 < a < 1.






















End Isco.

(** ** The Page-Thorne bracket *)









Section Bracket.
Variable a : R.
Hypothesis Ha : -1 < a < 1.



End Bracket.

(** ** The flux routine *)

Lemma PT_fi_code (a xi xj xk x0 x : R) :
  3 * ((xi - a) * (xi - a)) / (xi * (xi - xj) * (xi - xk))
  * ln ((x - xi) / (x0 - xi))
  = PT_fi a xi xj xk x0 x.
Proof. unfold PT_fi, Rdiv. ring. Qed.

Lemma PT_fi_swap (a xi xj xk x0 x : R) :
  PT_fi a xi xj xk x0 x = PT_fi a xi xk xj x0 x.
Proof.
  unfold PT_fi.
  replace (xi * (xi - xj) * (xi - xk)) with (xi * (xi - xk) * (xi - xj)) by ring.
  reflexivity.
Qed.

Section RealModel.
Context {lib : @Sim5Lib RealArith}.
Implicit Types (st : @disk_nt RealArith) (r : R).


Lemma flux_outside st r :
  disk_nt_disk_rms st < r ->
  disk_nt_flux st r
  = 9.1721376255e28 * PT_Fhat (disk_nt_bh_spin st) (disk_nt_disk_rms st) r
    * disk_nt_disk_mdot st / disk_nt_bh_mass st.
Proof.
  destruct st as [M a mdot rms alpha opts].
  cbn [disk_nt_bh_mass disk_nt_bh_spin disk_nt_disk_mdot disk_nt_disk_rms].
  intros H. unfold disk_nt_flux.
  cbn [disk_nt_bh_mass disk_nt_bh_spin disk_nt_disk_mdot disk_nt_disk_rms].
  real_arith. rewrite Rleb_false by exact H.
  rewrite !PT_fi_code.
  unfold PT_Fhat, PT_bracket, PT_f0, PT_cubic, PT_x1, PT_x2, PT_x3. cbv zeta.
  set (x1 := 2 * cos (1 / 3 * acos a - PI / 3)).
  set (x2 := 2 * cos (1 / 3 * acos a + PI / 3)).
  set (x3 := -2 * cos (1 / 3 * acos a)).
  rewrite (PT_fi_swap a x2 x1 x3).
  replace (sqrt r ^ 2 * (sqrt r ^ 3 - 3 * sqrt r + 2 * a))
    with (sqrt r * sqrt r * (sqrt r * sqrt r * sqrt r - 3 * sqrt r + 2 * a))
    by ring.
  rewrite lit_three_halves, lit_flux_unit. norm_lits. unfold Rdiv. ring.
Qed.
End RealModel.

(** ** The inverse routine and the set-up *)

Section Inverse.
Context {num : CArith} {lib : Sim5Lib}.

Lemma find_mdot_unfold (L0 : double) (st : disk_nt) :
  disk_nt_find_mdot_for_luminosity L0 st
  = (if Z.eqb (fst (oracle_value inverse_search (residual st L0))) 0
     then d_lit 0
     else snd (oracle_value inverse_search (residual st L0)),
     after_trials st (oracle_trials inverse_search (residual st L0))).
Proof.
  unfold disk_nt_find_mdot_for_luminosity, bind.
  fold inverse_search. rewrite run_oracle_fce.
  destruct (oracle_value inverse_search (residual st L0)) as [res L].
  reflexivity.
Qed.

Lemma with_mdot_after_trials (st : disk_nt) (l : list double) (v : single) :
  with_mdot (after_trials st l) v = with_mdot st v.
Proof. destruct l; reflexivity. Qed.

Lemma setup_by_mdot (M a mdot alpha : double) (options : Z) (st : disk_nt) :
  Z.land options DISK_NT_OPTION_LUMINOSITY = 0%Z ->
  disk_nt_setup M a mdot alpha options st
  = (0%Z, with_mdot (setup_stores M a alpha options st) (to_single mdot)).
Proof.
  intros H. unfold disk_nt_setup, bind, read, ret, set_bh_mass, set_bh_spin,
    set_disk_rms, set_disk_alpha, set_options, set_disk_mdot.
  cbn [disk_nt_bh_mass disk_nt_bh_spin disk_nt_disk_mdot disk_nt_disk_rms
       disk_nt_disk_alpha disk_nt_options].
  rewrite H. reflexivity.
Qed.

Lemma setup_by_luminosity (M a L0 alpha : double) (options : Z) (st : disk_nt) :
  Z.land options DISK_NT_OPTION_LUMINOSITY <> 0%Z ->
  disk_nt_setup M a L0 alpha options st
  = (0%Z,
     with_mdot (setup_stores M a alpha options st)
       (to_single
          (fst (disk_nt_find_mdot_for_luminosity L0
                  (setup_stores M a alpha options st))))).
Proof.
  intros H. apply Z.eqb_neq in H.
  unfold disk_nt_setup, bind, read, ret, set_bh_mass, set_bh_spin,
    set_disk_rms, set_disk_alpha, set_options.
  cbn [disk_nt_bh_mass disk_nt_bh_spin disk_nt_disk_mdot disk_nt_disk_rms
       disk_nt_disk_alpha disk_nt_options].
  rewrite H. fold (setup_stores M a alpha options st).
  rewrite find_mdot_unfold. cbn [fst]. unfold set_disk_mdot.
  rewrite <- (with_mdot_after_trials (setup_stores M a alpha options st)
               (oracle_trials inverse_search
                  (residual (setup_stores M a alpha options st) L0))).
  reflexivity.
Qed.

(** Claim C8.  [disk_nt_find_mdot_for_luminosity L0] hands [rtbis] the
    bracket from [0] to [100], the tolerance [1e-6] and the callback [fce].
    Each call of [fce] first stores the trial accretion rate in
    [disk_nt_disk_mdot] and then returns [L0] minus [disk_nt_lumi] of the
    updated statics, so [rtbis] bisects the residual
    [h xmdot = L0 - lumi(xmdot)].  The routine returns the root [rtbis]
    reports when its status is nonzero and [0] when the status is zero; the
    static is left at the last trial. *)
Theorem find_mdot_bisects_residual (L0 : double) (st : disk_nt) :
  let search := rtbis (d_lit 0) (d_lit 100) (dec 1 (-6)) in
  let h := fun xmdot : double =>
             d_sub L0 (disk_nt_lumi (with_mdot st (to_single xmdot))) in
  (forall (xmdot : double) (st' : disk_nt),
      fce L0 xmdot st'
      = (d_sub L0 (disk_nt_lumi (with_mdot st' (to_single xmdot))),
         with_mdot st' (to_single xmdot)))
  /\ disk_nt_find_mdot_for_luminosity L0 st
     = ((let (res, root) := oracle_value search h in
         if Z.eqb res 0 then d_lit 0 else root),
        after_trials st (oracle_trials search h)).
Proof.
  cbv zeta. split.
  - intros xmdot st'. apply fce_unfold.
  - rewrite find_mdot_unfold. unfold inverse_search.
    change (residual st L0)
      with (fun xmdot : double =>
              d_sub L0 (disk_nt_lumi (with_mdot st (to_single xmdot)))).
    destruct (oracle_value _ _) as [res root]. reflexivity.
Qed.

End Inverse.

(** ** The reference collaborators at a vanishing accretion rate *)









(** ** The inner edge *)

Lemma Rpow_c_pos (x y : R) : 0 < x -> Rpow_c x y = Rpower x y.
Proof. intros H. unfold Rpow_c. destruct (Rlt_dec 0 x); [reflexivity|contradiction]. Qed.


Lemma lit_milli : 1e-3 = 1 / 1000.
Proof. lra. Qed.

Lemma r_min_isco_r0 (st : @disk_nt RealArith) :
  -1 < disk_nt_bh_spin st < 1 ->
  disk_nt_r_min st = isco_r0 (disk_nt_bh_spin st) + 1e-3.
Proof.
  destruct st as [M a mdot rms alpha opts]. cbn [disk_nt_bh_spin]. intros Ha.
  unfold disk_nt_r_min. cbn [disk_nt_bh_spin]. real_arith.
  rewrite !Rpow_c_pos by nra.
  rewrite lit_milli. norm_lits.
  unfold isco_r0, isco_Z2, isco_Z1, cube_root, isco_s, Rleb.
  replace (a ^ 2) with (a * a) by ring.
  set (z1 := 1 + Rpower (1 - a * a) (1 / 3)
              * (Rpower (1 + a) (1 / 3) + Rpower (1 - a) (1 / 3))).
  replace (z1 ^ 2) with (z1 * z1) by ring.
  replace (3 * (a * a)) with (3 * a * a) by ring.
  destruct (Rle_dec 0 a); reflexivity.
Qed.

Lemma cube_root_1 : cube_root 1 = 1.
Proof. unfold cube_root, Rpower. rewrite ln_1, Rmult_0_r. apply exp_0. Qed.

Lemma isco_Z1_0 : isco_Z1 0 = 3.
Proof.
  unfold isco_Z1. replace (1 - 0 ^ 2) with 1 by ring.
  replace (1 + 0) with 1 by ring. replace (1 - 0) with 1 by ring.
  rewrite cube_root_1. ring.
Qed.

Lemma isco_r0_r_isco (a : R) : isco_r0 a = r_isco a.
Proof.
  unfold isco_r0, r_isco, isco_s, sgn.
  destruct (Rle_dec 0 a) as [H0|H0]; destruct (Rlt_dec 0 a) as [H1|H1];
    try destruct (Rlt_dec a 0) as [H2|H2]; try reflexivity; try lra.
  assert (a = 0) by lra. subst a. rewrite isco_Z1_0.
  replace (3 - 3) with 0 by ring. rewrite Rmult_0_l, sqrt_0. ring.
Qed.

Lemma isco_r0_0 : isco_r0 0 = 6.
Proof.
  unfold isco_r0, isco_Z2. rewrite isco_Z1_0.
  replace (3 - 3) with 0 by ring. rewrite Rmult_0_l, sqrt_0.
  replace (3 * 0 ^ 2 + 3 ^ 2) with (3 * 3) by ring.
  rewrite sqrt_square by lra. ring.
Qed.

(** ** The claims over the reals *)

Section RadialStructure.
Context {lib : @Sim5Lib RealArith}.
Implicit Types (st : @disk_nt RealArith) (r : R).

(** Claim C1.  For a spin strictly between [-1] and [1] and a radius above
    the stored inner edge, [disk_nt_flux] is
    [9.1721376255e28 * (mdot / M) * PT_Fhat a r_ms r], where [PT_Fhat] is the
    dimensionless flux [1/(4 pi r) * 1.5/(x^2 (x^3 - 3x + 2a)) *
    (f0 - f1 - f2 - f3)] in [x = sqrt r], [x0 = sqrt r_ms], and [PT_x1],
    [PT_x2], [PT_x3] are roots of [x^3 - 3x + 2a]. *)
Theorem flux_page_thorne st r :
  -1 < disk_nt_bh_spin st < 1 ->
  disk_nt_disk_rms st < r ->
  disk_nt_flux st r
  = 9.1721376255e28 * (disk_nt_disk_mdot st / disk_nt_bh_mass st)
    * PT_Fhat (disk_nt_bh_spin st) (disk_nt_disk_rms st) r
  /\ PT_cubic (disk_nt_bh_spin st) (PT_x1 (disk_nt_bh_spin st)) = 0
  /\ PT_cubic (disk_nt_bh_spin st) (PT_x2 (disk_nt_bh_spin st)) = 0
  /\ PT_cubic (disk_nt_bh_spin st) (PT_x3 (disk_nt_bh_spin st)) = 0.
Proof.
  intros Ha Hr. repeat split.
  - rewrite flux_outside by exact Hr. real_arith. unfold Rdiv. ring.
  - apply PT_x1_root. lra.
  - apply PT_x2_root. lra.
  - apply PT_x3_root. lra.
Qed.

Lemma setup_state (M a x alpha : R) (options : Z) st :
  exists v : R,
    disk_nt_setup M a x alpha options st
    = (0%Z, with_mdot (setup_stores M a alpha options st) v).
Proof.
  destruct (Z.eq_dec (Z.land options DISK_NT_OPTION_LUMINOSITY) 0) as [H|H].
  - eexists. apply setup_by_mdot, H.
  - eexists. apply setup_by_luminosity, H.
Qed.

Lemma setup_spin (M a x alpha : R) (options : Z) st :
  disk_nt_bh_spin (snd (disk_nt_setup M a x alpha options st)) = a.
Proof. destruct (setup_state M a x alpha options st) as [v ->]. reflexivity. Qed.

Lemma setup_mass (M a x alpha : R) (options : Z) st :
  disk_nt_bh_mass (snd (disk_nt_setup M a x alpha options st)) = M.
Proof. destruct (setup_state M a x alpha options st) as [v ->]. reflexivity. Qed.

Lemma setup_rms (M a x alpha : R) (options : Z) st :
  disk_nt_disk_rms (snd (disk_nt_setup M a x alpha options st))
  = disk_nt_r_min (snd (disk_nt_setup M a x alpha options st)).
Proof. destruct (setup_state M a x alpha options st) as [v ->]. reflexivity. Qed.

Lemma lit_6001 : 6 + 1e-3 = 6.001.
Proof. lra. Qed.

(** Claim C2.  For a spin strictly between [-1] and [1], [disk_nt_r_min]
    returns [r_isco a + 1e-3], with [r_isco] the radius of the marginally
    stable orbit in the closed form of Bardeen, Press and Teukolsky; after a
    set-up with [a = 0] it returns [6.001]. *)
Theorem r_min_returns_isco st :
  -1 < disk_nt_bh_spin st < 1 ->
  disk_nt_r_min st = r_isco (disk_nt_bh_spin st) + 1e-3
  /\ forall (M x alpha : R) (options : Z),
       disk_nt_r_min (snd (disk_nt_setup M 0 x alpha options st)) = 6.001.
Proof.
  intros Ha. split.
  - rewrite r_min_isco_r0 by exact Ha. rewrite isco_r0_r_isco. reflexivity.
  - intros M x alpha options.
    rewrite r_min_isco_r0 by (rewrite setup_spin; lra).
    rewrite setup_spin, isco_r0_0. apply lit_6001.
Qed.

Lemma Rpower_three_halves (x : R) : 0 < x -> Rpower x (3 / 2) = sqrt x * x.
Proof.
  intros Hx. replace (3 / 2) with (/ 2 + 1) by field.
  rewrite Rpower_plus, Rpower_sqrt, Rpower_1 by exact Hx. reflexivity.
Qed.

Lemma ell_clamped st r :
  0 < disk_nt_disk_rms st ->
  disk_nt_ell st r
  = kepler_ell (disk_nt_bh_spin st) (Rmax r (disk_nt_disk_rms st)).
Proof.
  destruct st as [M a mdot rms alpha opts].
  cbn [disk_nt_disk_rms disk_nt_bh_spin]. intros Hrms.
  unfold disk_nt_ell, kepler_ell. cbn [disk_nt_disk_rms disk_nt_bh_spin].
  real_arith. rewrite (Rmax_comm rms r).
  assert (Hm : 0 < Rmax r rms) by (pose proof (Rmax_r r rms); lra).
  rewrite Rpower_three_halves by exact Hm.
  set (q := Rmax r rms).
  replace (q ^ 2) with (q * q) by ring.
  replace (a ^ 2) with (a * a) by ring.
  reflexivity.
Qed.

(** Claim C6.  For every radius [r] (the stored inner edge being positive),
    [disk_nt_ell st r] is
    [(q^2 - 2 a sqrt q + a^2) / (q^(3/2) - 2 sqrt q + a)] evaluated at
    [q = max r r_ms]. *)
Theorem ell_at_clamped_radius st r :
  0 < disk_nt_disk_rms st ->
  disk_nt_ell st r
  = kepler_ell (disk_nt_bh_spin st) (Rmax r (disk_nt_disk_rms st)).
Proof. apply ell_clamped. Qed.


End RadialStructure.

Section Luminosity.
Context {lib : @Sim5Lib RealArith}.
Implicit Types (st : @disk_nt RealArith) (r : R).

Lemma func_luminosity_element st (x : R) :
  func_luminosity st x = lumi_element (disk_nt_bh_spin st) (disk_nt_flux st) x.
Proof.
  unfold func_luminosity, lumi_element, kerr_U_t, kerr_g_tt, kerr_g_tphi,
    kerr_g_phiphi, kerr_Omega.
  generalize (disk_nt_flux st). intros flux.
  destruct st as [M a mdot rms alpha opts]. cbn [disk_nt_bh_spin].
  real_arith. rewrite Rpow_c_pos by apply exp_pos. norm_lits.
  replace (15 / 10) with (3 / 2) by field.
  set (r := exp x). set (p := Rpower r (3 / 2)).
  replace (r ^ 2) with (r * r) by ring.
  replace (a ^ 2) with (a * a) by ring.
  replace ((1 / (a + p)) ^ 2) with (1 / (a + p) * (1 / (a + p))) by ring.
  reflexivity.
Qed.

Lemma lit_rmax : IZR (1 * 10 ^ 5) = 1e5.
Proof. norm_lits. lra. Qed.

Lemma lit_eps : 1 / IZR (10 ^ 5) = 1e-5.
Proof. norm_lits. lra. Qed.

(** Claim C5.  [disk_nt_lumi] is the value [integrate_simpson] returns for
    the element [2 pi r * 2 * (- U_t) * flux r * r] as a function of [log r],
    from [log r_ms] to [log 1e5] with tolerance [1e-5], multiplied by
    [(M * r_g)^2] and divided by [L_Edd * M].  [U_t] is built from
    [g_tt = -1 + 2/r], [g_tphi = -2a/r], [g_phiphi = r^2 + a^2 + 2a^2/r] and
    [Omega = 1/(a + r^(3/2))]. *)
Theorem lumi_is_simpson_integral st :
  disk_nt_lumi st
  = @integrate_simpson RealArith lib
      (lumi_element (disk_nt_bh_spin st) (disk_nt_flux st))
      (ln (disk_nt_disk_rms st)) (ln 1e5) 1e-5
    * (disk_nt_bh_mass st * @grav_radius RealArith lib) ^ 2
    / (@L_Edd RealArith lib * disk_nt_bh_mass st).
Proof.
  unfold disk_nt_lumi.
  replace (func_luminosity st)
    with (lumi_element (disk_nt_bh_spin st) (disk_nt_flux st))
    by (apply functional_extensionality; intros x;
        symmetry; apply func_luminosity_element).
  real_arith. rewrite lit_rmax, lit_eps. unfold Rdiv. ring.
Qed.




End Luminosity.

Section InnerEdge.
Context {lib : @Sim5Lib RealArith}.
Implicit Types (st : @disk_nt RealArith) (r : R).




End InnerEdge.

Lemma scenario_S1_state :
  scenario_S1
  = with_mdot (@setup_stores RealArith 10 0 0.1 0
                 (@disk_nt_initial RealArith)) 0.1.
Proof.
  unfold scenario_S1.
  rewrite (@setup_by_mdot RealArith reference_lib) by reflexivity. reflexivity.
Qed.

Lemma scenario_S1_rms : disk_nt_disk_rms scenario_S1 = 6.001.
Proof.
  unfold scenario_S1. rewrite (@setup_rms reference_lib).
  rewrite r_min_isco_r0 by (rewrite (@setup_spin reference_lib); lra).
  rewrite (@setup_spin reference_lib), isco_r0_0. apply lit_6001.
Qed.


(** ** Instances at scenario S1 *)

Lemma scenario_S1_spin : disk_nt_bh_spin scenario_S1 = 0.
Proof. rewrite scenario_S1_state. reflexivity. Qed.

Lemma scenario_S1_mass : disk_nt_bh_mass scenario_S1 = 10.
Proof. rewrite scenario_S1_state. reflexivity. Qed.

Lemma scenario_S1_mdot : disk_nt_disk_mdot scenario_S1 = 0.1.
Proof. rewrite scenario_S1_state. reflexivity. Qed.

Lemma flux_page_thorne_witness :
  disk_nt_flux scenario_S1 10
  = 9.1721376255e28 * (0.1 / 10) * PT_Fhat 0 6.001 10.
Proof.
  pose proof (@flux_page_thorne scenario_S1 10) as H.
  rewrite scenario_S1_spin, scenario_S1_rms, scenario_S1_mass,
    scenario_S1_mdot in H.
  apply H; lra.
Defined.

Lemma r_min_returns_isco_witness :
  disk_nt_r_min scenario_S1 = r_isco 0 + 1e-3.
Proof.
  pose proof (@r_min_returns_isco reference_lib scenario_S1) as H.
  rewrite scenario_S1_spin in H. apply H. lra.
Defined.



Lemma ell_at_clamped_radius_witness :
  disk_nt_ell scenario_S1 10 = kepler_ell 0 10.
Proof.
  pose proof (@ell_at_clamped_radius scenario_S1 10) as H.
  rewrite scenario_S1_rms, scenario_S1_spin in H.
  rewrite Rmax_left in H by lra. apply H. lra.
Defined.




(** ** Rounding to binary32 *)

Section Binary32Rounding.
Local Open Scope Z_scope.

Lemma digits2_pos_size (m : positive) : SpecFloat.digits2_pos m = Pos.size m.
Proof. induction m as [m IH|m IH|]; cbn; rewrite ?IH; reflexivity. Qed.

Lemma Zdigits2_log2 (m : positive) : SpecFloat.Zdigits2 (Zpos m) = Z.log2 (Zpos m) + 1.
Proof.
  cbn. rewrite digits2_pos_size.
  destruct m as [m|m|]; cbn; try reflexivity; lia.
Qed.

Lemma Zdigits2_nonneg (m : Z) : 0 <= SpecFloat.Zdigits2 m.
Proof. destruct m; cbn; lia. Qed.

(** The number of bits of a positive number. *)
Lemma Zdigits2_spec (m : Z) : 0 < m ->
  2 ^ (SpecFloat.Zdigits2 m - 1) <= m < 2 ^ SpecFloat.Zdigits2 m.
Proof.
  intros Hm. destruct m as [|p|p]; try lia.
  rewrite Zdigits2_log2.
  replace (Z.log2 (Z.pos p) + 1 - 1) with (Z.log2 (Z.pos p)) by lia.
  replace (Z.log2 (Z.pos p) + 1) with (Z.succ (Z.log2 (Z.pos p))) by lia.
  apply Z.log2_spec. lia.
Qed.

Lemma Zdigits2_unique (m d : Z) : 0 < m -> 2 ^ (d - 1) <= m < 2 ^ d -> SpecFloat.Zdigits2 m = d.
Proof.
  intros Hm Hd. destruct m as [|p|p]; try lia.
  rewrite Zdigits2_log2.
  assert (0 < d).
  { destruct (Z_lt_le_dec 0 d); [assumption|exfalso].
    assert (2 ^ d <= 2 ^ 0) by (apply Z.pow_le_mono_r; lia). cbn in *. lia. }
  rewrite (Z.log2_unique (Z.pos p) (d - 1)); [lia|lia|].
  replace (Z.succ (d - 1)) with d by lia. assumption.
Qed.

Lemma shr_1_m (mrs : SpecFloat.shr_record) :
  0 <= SpecFloat.shr_m mrs -> SpecFloat.shr_m (SpecFloat.shr_1 mrs) = SpecFloat.shr_m mrs / 2.
Proof.
  destruct mrs as [m r s]. cbn [SpecFloat.shr_m]. intros Hm.
  destruct m as [|p|p]; try lia; [reflexivity|].
  destruct p as [p|p|]; cbn [SpecFloat.shr_1 SpecFloat.shr_m].
  - rewrite Pos2Z.inj_xI. apply Z.div_unique with (r := 1); lia.
  - rewrite Pos2Z.inj_xO. apply Z.div_unique with (r := 0); lia.
  - reflexivity.
Qed.

Lemma iter_shr_1_m (p : positive) (mrs : SpecFloat.shr_record) :
  0 <= SpecFloat.shr_m mrs ->
  SpecFloat.shr_m (SpecFloat.iter_pos SpecFloat.shr_1 p mrs) = SpecFloat.shr_m mrs / 2 ^ Zpos p.
Proof.
  revert mrs. induction p as [p IH|p IH|]; intros mrs Hm; cbn [SpecFloat.iter_pos].
  - assert (H1 : 0 <= SpecFloat.shr_m (SpecFloat.shr_1 mrs)) by (rewrite shr_1_m by assumption; apply Z.div_pos; lia).
    assert (H2 : 0 <= SpecFloat.shr_m (SpecFloat.iter_pos SpecFloat.shr_1 p (SpecFloat.shr_1 mrs))) by (rewrite IH by assumption; apply Z.div_pos; lia).
    rewrite IH, IH, shr_1_m by assumption.
    rewrite !Z.div_div by lia. f_equal.
    replace (Z.pos p~1) with (1 + Z.pos p + Z.pos p) by lia.
    rewrite !Z.pow_add_r by lia. lia.
  - assert (H2 : 0 <= SpecFloat.shr_m (SpecFloat.iter_pos SpecFloat.shr_1 p mrs)) by (rewrite IH by assumption; apply Z.div_pos; lia).
    rewrite IH, IH by assumption.
    rewrite Z.div_div by lia. f_equal.
    replace (Z.pos p~0) with (Z.pos p + Z.pos p) by lia.
    rewrite Z.pow_add_r by lia. reflexivity.
  - rewrite shr_1_m by assumption. reflexivity.
Qed.

Lemma fexp32 (e : Z) : SpecFloat.fexp 24 128 e = Z.max (e - 24) (-149).
Proof. reflexivity. Qed.

Lemma shr_record_of_loc_m (m : Z) (l : SpecFloat.location) : SpecFloat.shr_m (SpecFloat.shr_record_of_loc m l) = m.
Proof. destruct l as [|[| |]]; reflexivity. Qed.

(** What [SpecFloat.shr_fexp] returns: the mantissa divided by [2^n] and the exponent
    raised by [n], for [n] the distance to the canonical exponent. *)
Lemma shr_fexp_spec (m e : Z) (l : SpecFloat.location) :
  0 <= m ->
  let n := SpecFloat.fexp 24 128 (SpecFloat.Zdigits2 m + e) - e in
  SpecFloat.shr_m (fst (SpecFloat.shr_fexp 24 128 m e l)) = (if 0 <? n then m / 2 ^ n else m)
  /\ snd (SpecFloat.shr_fexp 24 128 m e l) = (if 0 <? n then e + n else e).
Proof.
  intros Hm n. unfold SpecFloat.shr_fexp, SpecFloat.shr. fold n.
  destruct n as [|p|p] eqn:En; cbn [fst snd]; rewrite ?shr_record_of_loc_m.
  - split; reflexivity.
  - rewrite iter_shr_1_m by (rewrite shr_record_of_loc_m; assumption).
    rewrite shr_record_of_loc_m. split; reflexivity.
  - split; reflexivity.
Qed.

Lemma two_power_pos (k : Z) : 0 <= k -> 0 < 2 ^ k.
Proof. intros. apply Z.pow_pos_nonneg; lia. Qed.

(** Dropping [n] low bits of a number of [d] bits. *)
Lemma Zdigits2_div_pow2 (m n : Z) :
  0 < m -> 0 <= n -> 0 < m / 2 ^ n -> SpecFloat.Zdigits2 (m / 2 ^ n) = SpecFloat.Zdigits2 m - n.
Proof.
  intros Hm Hn Hq. pose proof (Zdigits2_spec Hm) as [Hlo Hhi].
  pose proof (two_power_pos Hn) as Hp.
  set (d := SpecFloat.Zdigits2 m) in *.
  assert (Hnd : n < d).
  { destruct (Z_lt_le_dec n d); [assumption|exfalso].
    assert (2 ^ d <= 2 ^ n) by (apply Z.pow_le_mono_r; lia).
    assert (m / 2 ^ n = 0) by (apply Z.div_small; lia). lia. }
  apply Zdigits2_unique; [assumption|]. split.
  - replace (d - n - 1) with (d - 1 - n) by lia.
    rewrite Z.pow_sub_r by lia.
    apply Z.div_le_mono; lia.
  - apply Z.div_lt_upper_bound; [lia|].
    rewrite <- Z.pow_add_r by lia. replace (n + (d - n)) with d by lia. assumption.
Qed.

Lemma Zdigits2_small (m n : Z) : 0 < m -> 0 <= n -> m / 2 ^ n = 0 -> SpecFloat.Zdigits2 m <= n.
Proof.
  intros Hm Hn Hq. pose proof (Zdigits2_spec Hm) as [Hlo Hhi].
  pose proof (two_power_pos Hn) as Hp.
  destruct (Z_le_gt_dec (SpecFloat.Zdigits2 m) n); [assumption|exfalso].
  assert (2 ^ n <= 2 ^ (SpecFloat.Zdigits2 m - 1)) by (apply Z.pow_le_mono_r; lia).
  assert (1 <= m / 2 ^ n).
  { apply Z.div_le_lower_bound; lia. }
  lia.
Qed.


Lemma first_shift_aligned (m e : Z) (l : SpecFloat.location) :
  0 < m -> e <= SpecFloat.fexp 24 128 (SpecFloat.Zdigits2 m + e) ->
  let m' := SpecFloat.shr_m (fst (SpecFloat.shr_fexp 24 128 m e l)) in
  let e' := snd (SpecFloat.shr_fexp 24 128 m e l) in
  0 <= m' /\ (m' = 0 -> e' = -149)
  /\ (0 < m' -> SpecFloat.fexp 24 128 (SpecFloat.Zdigits2 m' + e') = e').
Proof.
  intros Hm He. cbv zeta.
  destruct (@shr_fexp_spec m e l) as [E1 E2]; [lia|]. rewrite E1, E2. clear E1 E2.
  set (d := SpecFloat.Zdigits2 m) in *. set (n := SpecFloat.fexp 24 128 (d + e) - e) in *.
  destruct (Z.ltb_spec 0 n) as [Hn|Hn].
  - pose proof (two_power_pos (k := n)) as Hp.
    assert (Hq : 0 <= m / 2 ^ n) by (apply Z.div_pos; lia).
    repeat split; [assumption| |].
    + intros Hz. pose proof (@Zdigits2_small m n) as Hs. fold d in Hs.
      unfold n in *. rewrite fexp32 in *. lia.
    + intros Hpos. rewrite Zdigits2_div_pow2 by lia. fold d.
      replace (d - n + (e + n)) with (d + e) by lia. unfold n. lia.
  - repeat split; [lia|lia|]. intros _. fold d. unfold n in Hn. lia.
Qed.

Lemma round_nearest_even_cases (m : Z) (l : SpecFloat.location) :
  SpecFloat.round_nearest_even m l = m \/ SpecFloat.round_nearest_even m l = m + 1.
Proof. destruct l as [|[| |]]; cbn; try destruct (Z.even m); auto. Qed.

Lemma second_shift_canonical (m e m1 : Z) :
  0 <= m /\ (m = 0 -> e = -149)
  /\ (0 < m -> SpecFloat.fexp 24 128 (SpecFloat.Zdigits2 m + e) = e) ->
  m1 = m \/ m1 = m + 1 ->
  match SpecFloat.shr_m (fst (SpecFloat.shr_fexp 24 128 m1 e SpecFloat.loc_Exact)) with
  | Zpos p => SpecFloat.canonical_mantissa 24 128 p (snd (SpecFloat.shr_fexp 24 128 m1 e SpecFloat.loc_Exact)) = true
  | _ => True
  end.
Proof.
  intros (H0 & Hz & Hp) Hm1.
  assert (H1 : 0 <= m1) by lia.
  destruct (shr_fexp_spec e SpecFloat.loc_Exact H1) as [E1 E2]. rewrite E1, E2. clear E1 E2.
  destruct (Z.eq_dec m1 0) as [Hm10|Hm10].
  { subst m1. rewrite Z.div_0_l by (apply Z.pow_nonzero; [lia|]; cbn; rewrite fexp32; lia).
    destruct (0 <? _); exact I. }
  assert (Hm1p : 0 < m1) by lia.
  (* k: number of bits of m *)
  set (k := SpecFloat.Zdigits2 m) in *.
  assert (Hk0 : 0 <= k) by apply Zdigits2_nonneg.
  assert (Hmk : m < 2 ^ k).
  { destruct (Z.eq_dec m 0) as [->|]; [cbn; lia|]. apply Zdigits2_spec; lia. }
  assert (Hkm : 0 < m -> 2 ^ (k - 1) <= m) by (intros; apply Zdigits2_spec; lia).
  assert (Hke : SpecFloat.fexp 24 128 (k + e) = e).
  { destruct (Z.eq_dec m 0) as [Hm0|Hm0].
    - rewrite (Hz Hm0). unfold k. rewrite Hm0. reflexivity.
    - apply Hp. lia. }
  rewrite fexp32 in Hke.
  destruct (Z_lt_le_dec m1 (2 ^ k)) as [Hlt|Hge].
  - (* same number of bits *)
    assert (Hd1 : SpecFloat.Zdigits2 m1 = k).
    { apply Zdigits2_unique; [assumption|]. split; [|assumption].
      destruct (Z.eq_dec m 0) as [Hm0|Hm0].
      - subst m. unfold k in *. cbn in *. lia.
      - assert (2 ^ (k - 1) <= m) by (apply Hkm; lia). lia. }
    rewrite Hd1, fexp32.
    destruct (Z.ltb_spec 0 (Z.max (k + e - 24) (-149) - e)) as [Hn|Hn]; [lia|].
    destruct m1 as [|p|p]; try lia.
    unfold SpecFloat.canonical_mantissa. apply Z.eqb_eq.
    change (Zpos (SpecFloat.digits2_pos p)) with (SpecFloat.Zdigits2 (Zpos p)). rewrite Hd1, fexp32. lia.
  - (* a carry into a new bit: m1 = 2^k *)
    assert (Hm1k : m1 = 2 ^ k) by lia.
    assert (Hd1 : SpecFloat.Zdigits2 m1 = k + 1).
    { apply Zdigits2_unique; [assumption|]. replace (k + 1 - 1) with k by lia.
      rewrite Hm1k. split; [lia|]. apply Z.pow_lt_mono_r; lia. }
    rewrite Hd1, fexp32.
    destruct (Z.ltb_spec 0 (Z.max (k + 1 + e - 24) (-149) - e)) as [Hn|Hn].
    + assert (Hk24 : k = 24) by lia.
      replace (Z.max (k + 1 + e - 24) (-149) - e) with 1 by lia.
      rewrite Hm1k, Hk24. change (2 ^ 24 / 2 ^ 1) with (Zpos 8388608).
      unfold SpecFloat.canonical_mantissa. apply Z.eqb_eq. cbn [SpecFloat.digits2_pos Pos.succ].
      rewrite fexp32. lia.
    + destruct m1 as [|p|p]; try lia.
      unfold SpecFloat.canonical_mantissa. apply Z.eqb_eq.
      change (Zpos (SpecFloat.digits2_pos p)) with (SpecFloat.Zdigits2 (Zpos p)). rewrite Hd1, fexp32. lia.
Qed.

Lemma binary_round_aux_valid (s : bool) (m e : Z) (l : SpecFloat.location) :
  0 < m -> e <= SpecFloat.fexp 24 128 (SpecFloat.Zdigits2 m + e) ->
  SpecFloat.valid_binary 24 128 (SpecFloat.binary_round_aux 24 128 s m e l) = true.
Proof.
  intros Hm He. unfold SpecFloat.binary_round_aux.
  pose proof (first_shift_aligned l Hm He) as Hal.
  destruct (SpecFloat.shr_fexp 24 128 m e l) as [mrs' e']. cbn [fst snd] in Hal.
  pose proof (second_shift_canonical Hal
                (round_nearest_even_cases (SpecFloat.shr_m mrs') (SpecFloat.loc_of_shr_record mrs'))) as Hc.
  destruct (SpecFloat.shr_fexp 24 128 (SpecFloat.round_nearest_even (SpecFloat.shr_m mrs') (SpecFloat.loc_of_shr_record mrs')) e' SpecFloat.loc_Exact)
    as [mrs'' e'']. cbn [fst snd] in Hc.
  destruct (SpecFloat.shr_m mrs'') as [|p|p]; try reflexivity.
  destruct (Z.leb_spec e'' (128 - 24)) as [Hle|Hgt]; [|reflexivity].
  cbn [SpecFloat.valid_binary]. unfold SpecFloat.bounded. rewrite Hc. apply Z.leb_le. assumption.
Qed.

Lemma iter_xO_pow2 (d m : positive) : Zpos (Pos.iter xO m d) = Zpos m * 2 ^ Zpos d.
Proof.
  revert m. induction d as [d IH|d IH|]; intros m; cbn [Pos.iter].
  - rewrite Pos2Z.inj_xO, IH, IH.
    replace (Z.pos d~1) with (1 + Z.pos d + Z.pos d) by lia.
    rewrite !Z.pow_add_r by lia. lia.
  - rewrite IH, IH.
    replace (Z.pos d~0) with (Z.pos d + Z.pos d) by lia.
    rewrite Z.pow_add_r by lia. lia.
  - rewrite Pos2Z.inj_xO. lia.
Qed.

Lemma Zdigits2_mul_pow2 (m n : Z) : 0 < m -> 0 <= n -> SpecFloat.Zdigits2 (m * 2 ^ n) = SpecFloat.Zdigits2 m + n.
Proof.
  intros Hm Hn. pose proof (Zdigits2_spec Hm) as [Hlo Hhi].
  pose proof (two_power_pos Hn) as Hp.
  assert (0 < SpecFloat.Zdigits2 m).
  { destruct m; cbn in *; lia. }
  apply Zdigits2_unique; [lia|]. split.
  - replace (SpecFloat.Zdigits2 m + n - 1) with (SpecFloat.Zdigits2 m - 1 + n) by lia.
    rewrite Z.pow_add_r by lia. apply Z.mul_le_mono_nonneg_r; lia.
  - rewrite Z.pow_add_r by lia. apply Z.mul_lt_mono_pos_r; lia.
Qed.

Theorem binary_round_valid (s : bool) (m : positive) (e : Z) :
  SpecFloat.valid_binary 24 128 (SpecFloat.binary_round 24 128 s m e) = true.
Proof.
  unfold SpecFloat.binary_round, SpecFloat.shl_align.
  change (Zpos (SpecFloat.digits2_pos m)) with (SpecFloat.Zdigits2 (Zpos m)).
  set (e' := SpecFloat.fexp 24 128 (SpecFloat.Zdigits2 (Zpos m) + e)).
  destruct (e' - e) as [|d|d] eqn:Ed.
  - apply binary_round_aux_valid; [lia|]. fold e'. lia.
  - apply binary_round_aux_valid; [lia|]. fold e'. lia.
  - apply binary_round_aux_valid; [lia|].
    rewrite iter_xO_pow2, Zdigits2_mul_pow2 by lia.
    replace (SpecFloat.Zdigits2 (Z.pos m) + Z.pos d + e') with (SpecFloat.Zdigits2 (Z.pos m) + e) by lia.
    fold e'. lia.
Qed.
End Binary32Rounding.

(** ** The float statics *)

Lemma binary32_of_double_valid (x : PrimFloat.float) :
  SpecFloat.valid_binary 24 128 (binary32_of_double x) = true.
Proof.
  unfold binary32_of_double.
  destruct (FloatOps.Prim2SF x) as [s|s| |s m e]; try reflexivity.
  apply binary_round_valid.
Qed.

Section FloatStorage.
Variables libm_exp libm_log libm_cos libm_acos : PrimFloat.float -> PrimFloat.float.
Variable libm_pow : PrimFloat.float -> PrimFloat.float -> PrimFloat.float.

Let FA : CArith := FloatArith libm_exp libm_log libm_cos libm_acos libm_pow.

Context {lib : @Sim5Lib FA}.

Lemma setup_float_statics (M a mdot alpha : PrimFloat.float) (st : @disk_nt FA) :
  snd (@disk_nt_setup FA lib M a mdot alpha 0 st)
  = with_mdot (num := FA) (setup_stores (num := FA) M a alpha 0 st)
      (binary32_of_double mdot).
Proof.
  assert (Hopt : Z.land 0 (@DISK_NT_OPTION_LUMINOSITY FA lib) = 0%Z) by reflexivity.
  rewrite (@setup_by_mdot FA lib M a mdot alpha 0%Z st Hopt). reflexivity.
Qed.

Lemma rounded_is_binary32 (x : PrimFloat.float) :
  binary32_representable (double_of_binary32 (binary32_of_double x)).
Proof.
  exists (binary32_of_double x).
  split; [apply binary32_of_double_valid|reflexivity].
Qed.

(** C10.  At the machine instance the statics are binary32 numbers while
    the interface is in binary64.  After [disk_nt_setup(M, a, mdot, alpha, 0)]
    the routine [disk_nt_mdot] returns [mdot] rounded to binary32 and promoted
    back, a double that a [float] holds exactly (so it can equal the argument
    only if the argument is such a double), and the statics the queries read
    are the binary32 roundings of [M], [a], [alpha] and of the inner edge that
    [disk_nt_r_min] computes from the rounded spin. *)
Theorem setup_stores_binary32 (M a mdot alpha : PrimFloat.float)
    (st : @disk_nt FA) :
  let st' := snd (@disk_nt_setup FA lib M a mdot alpha 0 st) in
  disk_nt_mdot st' = double_of_binary32 (binary32_of_double mdot)
  /\ binary32_representable (disk_nt_mdot st')
  /\ disk_nt_bh_mass st' = binary32_of_double M
  /\ disk_nt_bh_spin st' = binary32_of_double a
  /\ disk_nt_disk_alpha st' = binary32_of_double alpha
  /\ disk_nt_disk_rms st' = binary32_of_double (disk_nt_r_min st').
Proof.
  cbv zeta. rewrite setup_float_statics.
  split; [reflexivity|]. split; [apply rounded_is_binary32|].
  repeat split.
Qed.

(** The value [disk_nt_mdot] returns equals the argument of the set-up only
    when the argument is representable in binary32. *)
Lemma mdot_unchanged_only_if_binary32 (M a mdot alpha : PrimFloat.float)
    (st : @disk_nt FA) :
  disk_nt_mdot (snd (@disk_nt_setup FA lib M a mdot alpha 0 st)) = mdot ->
  binary32_representable mdot.
Proof.
  rewrite setup_float_statics. intros H. rewrite <- H.
  apply rounded_is_binary32.
Qed.
End FloatStorage.

(** 0.1, the accretion rate of scenario S1, is not a binary32 number: the
    value read back differs from the one passed.  0.5 is read back
    unchanged. *)
Lemma tenth_not_binary32 :
  let tenth := PrimFloat.div (double_of_Z 1%Z) (double_of_Z 10%Z) in
  double_of_binary32 (binary32_of_double tenth) <> tenth.
Proof.
  cbv zeta. intros H. apply (f_equal FloatOps.Prim2SF) in H.
  vm_compute in H. discriminate H.
Qed.

Lemma half_is_binary32 :
  let half := PrimFloat.div (double_of_Z 1%Z) (double_of_Z 2%Z) in
  double_of_binary32 (binary32_of_double half) = half.
Proof. vm_compute. reflexivity. Qed.
